(** * GoodPracticesExample: a named, ordered collection of trimmed strings

    Shallow embedding of the class [GoodPracticesExample] of
    [demo/engineering-practices-demo.py], followed by the method
    [process_data] of [BadPracticesExample] and the test methods of
    [TestGoodPractices] of the same file.

    - A Python [str] is a finite sequence of Unicode code points; it is
      modelled as [list N].
    - The object has two attributes, [name] and [items]; it is a record, and
      the methods are computations in a small state monad over that record,
      so that what a method mutates is visible in its result.
    - [str.strip], [str.lower] and [in] are the interpreter's; they are
      written out here after CPython's implementation.  The case tables of
      the Unicode database are not part of the program: lower-casing of a
      string with a non-ASCII code point is a variable of the section. *)

From Stdlib Require Import List NArith ZArith Bool Arith Lia.
Import ListNotations.

Local Open Scope N_scope.
Local Open Scope list_scope.

(** ** Python strings *)

Module PyStr.

Definition codepoint := N.
Definition str := list codepoint.

(** [Py_UNICODE_ISSPACE]: the code points for which [str.isspace] holds. *)
Definition isspace (c : codepoint) : bool :=
  ((9 <=? c) && (c <=? 13))            (* \t \n \v \f \r *)
  || ((28 <=? c) && (c <=? 31))        (* FS GS RS US *)
  || (c =? 32)                         (* space *)
  || (c =? 133)                        (* U+0085 *)
  || (c =? 160)                        (* U+00A0 *)
  || (c =? 5760)                       (* U+1680 *)
  || ((8192 <=? c) && (c <=? 8202))    (* U+2000 .. U+200A *)
  || (c =? 8232) || (c =? 8233)        (* U+2028 U+2029 *)
  || (c =? 8239)                       (* U+202F *)
  || (c =? 8287)                       (* U+205F *)
  || (c =? 12288).                     (* U+3000 *)

(** [s.lstrip()]: drop the longest prefix of whitespace. *)
Fixpoint lstrip (s : str) : str :=
  match s with
  | [] => []
  | c :: s' => if isspace c then lstrip s' else s
  end.

(** [s.rstrip()]: drop the longest suffix of whitespace. *)
Definition rstrip (s : str) : str := rev (lstrip (rev s)).

(** [s.strip()]: the left index moves right over whitespace, then the right
    index moves left over whitespace, and the slice between them is returned. *)
Definition strip (s : str) : str := rstrip (lstrip s).

(** [not s] for a string: true exactly for the empty string. *)
Definition is_empty (s : str) : bool :=
  match s with
  | [] => true
  | _ :: _ => false
  end.

(** [s == t] on strings. *)
Fixpoint eqb (s t : str) : bool :=
  match s, t with
  | [], [] => true
  | a :: s', b :: t' => (a =? b) && eqb s' t'
  | _, _ => false
  end.

(** [s.startswith(p)]. *)
Fixpoint startswith (s p : str) {struct p} : bool :=
  match p, s with
  | [], _ => true
  | _ :: _, [] => false
  | a :: p', b :: s' => (a =? b) && startswith s' p'
  end.

(** [sub in s]: [sub] occurs in [s] at some offset. *)
Fixpoint contains (s sub : str) : bool :=
  startswith s sub ||
  match s with
  | [] => false
  | _ :: s' => contains s' sub
  end.

(** [PyUnicode_IS_ASCII]. *)
Definition is_ascii (s : str) : bool := forallb (fun c => c <? 128) s.

(** [Py_TOLOWER] on an ASCII code point. *)
Definition ascii_tolower (c : codepoint) : codepoint :=
  if (65 <=? c) && (c <=? 90) then c + 32 else c.

Section Lower.

(** Lower-casing through the Unicode database, used by CPython for a
    string that is not pure ASCII. *)
Variable unicode_lower : str -> str.

(** [s.lower()]: the ASCII fast path, or the Unicode case operation. *)
Definition lower (s : str) : str :=
  if is_ascii s then map ascii_tolower s else unicode_lower s.

End Lower.

End PyStr.

Import PyStr.

(** ** The object and its methods *)

(** The attributes set by [__init__]. *)
Record GoodPracticesExample : Type := mkGood {
  name : str;
  items : list str
}.

(** A method body: it reads and updates [self] and returns a value. *)
Definition M (A : Type) : Type := GoodPracticesExample -> A * GoodPracticesExample.

Definition ret {A : Type} (a : A) : M A := fun self => (a, self).

Definition bind {A B : Type} (m : M A) (k : A -> M B) : M B :=
  fun self => let (a, self') := m self in k a self'.

Notation "x <- m ;; k" := (bind m (fun x => k))
  (at level 61, m at next level, right associativity).
Notation "m ;; k" := (bind m (fun _ => k))
  (at level 61, right associativity).

(** Reading [self.items]. *)
Definition get_items : M (list str) := fun self => (items self, self).

(** [self.items.append(x)]. *)
Definition items_append (x : str) : M unit :=
  fun self => (tt, mkGood (name self) (items self ++ [x])).

(** The value a method returns, and the object it leaves. *)
Definition result {A : Type} (m : M A) (self : GoodPracticesExample) : A := fst (m self).
Definition after {A : Type} (m : M A) (self : GoodPracticesExample) : GoodPracticesExample :=
  snd (m self).

(** [GoodPracticesExample(name)]. *)
Definition init (n : str) : GoodPracticesExample := mkGood n [].

(** [add_item]. *)
Definition add_item (item : str) : M bool :=
  if is_empty item || eqb (strip item) [] then
    ret false
  else
    items_append (strip item) ;;
    ret true.

(** [get_items_count]. *)
Definition get_items_count : M nat :=
  l <- get_items ;;
  ret (length l).

Section Find.

Variable unicode_lower : str -> str.

(** The test of the loop: [search_term.lower() in item.lower()]. *)
Definition hit (search_term item : str) : bool :=
  contains (lower unicode_lower item) (lower unicode_lower search_term).

(** The loop of [find_item]: the first item that passes the test is
    returned at once; [None] is returned when the loop runs out. *)
Fixpoint find_loop (search_term : str) (l : list str) : option str :=
  match l with
  | [] => None
  | item :: rest =>
      if hit search_term item then Some item else find_loop search_term rest
  end.

(** [find_item]. *)
Definition find_item (search_term : str) : M (option str) :=
  l <- get_items ;;
  ret (find_loop search_term l).

(** A call of one of the three public methods, and what it leaves. *)
Inductive call : Type :=
| Add (item : str)
| Count
| Find (search_term : str).

Definition exec (c : call) (self : GoodPracticesExample) : GoodPracticesExample :=
  match c with
  | Add item => after (add_item item) self
  | Count => after get_items_count self
  | Find t => after (find_item t) self
  end.

Definition run (cs : list call) (self : GoodPracticesExample) : GoodPracticesExample :=
  fold_left (fun o c => exec c o) cs self.

End Find.

(** ** Vocabulary of the specification *)

(** [sub] is a substring of [s]. *)
Definition substring (sub s : str) : Prop :=
  exists pre suf, s = pre ++ sub ++ suf.

(** [s] consists of whitespace only (the empty string included). *)
Definition whitespace_only (s : str) : Prop := Forall (fun c => isspace c = true) s.

(** [t] neither starts nor ends with whitespace. *)
Definition no_outer_space (t : str) : Prop :=
  (forall c r, t = c :: r -> isspace c = false) /\
  (forall r c, t = r ++ [c] -> isspace c = false).

(** [t] is [s] without its leading and trailing whitespace. *)
Definition trimmed_of (s t : str) : Prop :=
  exists pre suf,
    s = pre ++ t ++ suf /\ whitespace_only pre /\ whitespace_only suf /\
    no_outer_space t.

(** What may be stored: a non-empty string, not whitespace-only, equal to
    its own trimmed form. *)
Definition valid_item (s : str) : Prop :=
  s <> [] /\ ~ whitespace_only s /\ strip s = s.

Definition invariant (self : GoodPracticesExample) : Prop :=
  Forall valid_item (items self).

(** Case-insensitive match of an item against a search term. *)
Definition matches (unicode_lower : str -> str) (search_term item : str) : Prop :=
  substring (lower unicode_lower search_term) (lower unicode_lower item).

(** Some strings of the tests.  *)
Definition hello_world : str :=
  [104; 101; 108; 108; 111; 32; 119; 111; 114; 108; 100].
Definition world : str := [119; 111; 114; 108; 100].
Definition WORLD : str := [87; 79; 82; 76; 68].
Definition three_spaces : str := [32; 32; 32].

(** The identity stands for the Unicode case tables where a concrete
    instance is needed; the strings used there are ASCII. *)
Definition no_unicode (s : str) : str := s.

(** What one call stores, and what a sequence of calls stores, in order. *)
Definition stored_by (c : call) : list str :=
  match c with
  | Add item => if is_empty (strip item) then [] else [strip item]
  | Count => []
  | Find _ => []
  end.

Definition accepted (cs : list call) : list str := flat_map stored_by cs.

(** ** [BadPracticesExample.process_data]

    The method does not use [self].  Its flags are only tested for truth, so
    they are booleans here.  The elements of [data] are of any type: what
    the loop body asks of them is an interface. *)

(** [i * 2] and [i + 1], which may raise, and the conditional expression
    [str(temp).upper() if isinstance(temp, str) else temp]. *)
Class Element (V E : Type) : Type := {
  times_two : V -> E + V;
  plus_one : V -> E + V;
  upper_if_str : V -> V
}.

(** [result]: a list, or a dict with integer keys in insertion order. *)
Inductive container (V : Type) : Type :=
| PyList (l : list V)
| PyDict (d : list (nat * V)).

Arguments PyList {V} l.
Arguments PyDict {V} d.

(** [d[k] = v]: the value of an existing key is replaced where it stands, a
    new key goes to the end. *)
Fixpoint dict_set {V : Type} (d : list (nat * V)) (k : nat) (v : V)
  : list (nat * V) :=
  match d with
  | [] => [(k, v)]
  | (k', v') :: d' =>
      if Nat.eqb k' k then (k', v) :: d' else (k', v') :: dict_set d' k v
  end.

Section ProcessData.

Context {V E : Type} {D : Element V E}.

Variables flag1 flag2 flag3 special_mode debug_mode override_safety
          use_cache validate_input transform_output : bool.

(** The first statements of the loop body: the value of [temp] for the
    element [i], or the error raised on the way. *)
Definition temp_of (i : V) : E + V :=
  match
    (if flag2 && flag3 && special_mode && negb debug_mode then times_two i
     else if override_safety || (use_cache && validate_input) then plus_one i
     else inr i)
  with
  | inl e => inl e
  | inr temp => inr (if transform_output then upper_if_str temp else temp)
  end.

(** The last statements of the loop body: [result.append(temp)] on a list,
    [result[len(result)] = temp] otherwise. *)
Definition store (result : container V) (temp : V) : container V :=
  match result with
  | PyList l => PyList (l ++ [temp])
  | PyDict d => PyDict (dict_set d (length d) temp)
  end.

(** The loop: an error leaves it at once. *)
Fixpoint process_loop (data : list V) (result : container V)
  : E + container V :=
  match data with
  | [] => inr result
  | i :: rest =>
      match temp_of i with
      | inl e => inl e
      | inr temp => process_loop rest (store result temp)
      end
  end.

Definition process_data_body (data : list V) : E + container V :=
  process_loop data (if flag1 then PyList [] else PyDict []).

(** The values of [temp] for all of [data], or the first error. *)
Fixpoint temps (data : list V) : E + list V :=
  match data with
  | [] => inr []
  | i :: rest =>
      match temp_of i with
      | inl e => inl e
      | inr temp =>
          match temps rest with
          | inl e => inl e
          | inr ts => inr (temp :: ts)
          end
      end
  end.

End ProcessData.

(** [process_data], with the arguments in the order of the source. *)
Definition process_data {V E : Type} {D : Element V E} (data : list V)
  (flag1 flag2 flag3 special_mode debug_mode override_safety use_cache
   validate_input transform_output : bool) : E + container V :=
  process_data_body flag1 flag2 flag3 special_mode debug_mode override_safety
                    use_cache validate_input transform_output data.

(** [enumerate(l)], as the items of a dict. *)
Definition enumerate {V : Type} (l : list V) : list (nat * V) :=
  combine (seq 0 (length l)) l.

(** *** Integers and strings as elements *)

Inductive value : Type :=
| VInt (z : Z)
| VStr (s : str).

Inductive exn : Type :=
| TypeError.

(** [Py_TOUPPER] on an ASCII code point. *)
Definition ascii_toupper (c : codepoint) : codepoint :=
  if (97 <=? c) && (c <=? 122) then c - 32 else c.

(** [s.upper()]: the ASCII fast path, or the Unicode case operation. *)
Definition upper (unicode_upper : str -> str) (s : str) : str :=
  if is_ascii s then map ascii_toupper s else unicode_upper s.

(** [int * 2] doubles and [str * 2] repeats; [int + 1] adds and [str + 1]
    raises [TypeError]; only a [str] is upper-cased. *)
Definition value_element (unicode_upper : str -> str) : Element value exn := {|
  times_two v :=
    match v with
    | VInt z => inr (VInt (z * 2)%Z)
    | VStr s => inr (VStr (s ++ s))
    end;
  plus_one v :=
    match v with
    | VInt z => inr (VInt (z + 1)%Z)
    | VStr _ => inl TypeError
    end;
  upper_if_str v :=
    match v with
    | VInt z => VInt z
    | VStr s => VStr (upper unicode_upper s)
    end
|}.

Definition is_str (v : value) : bool :=
  match v with
  | VInt _ => false
  | VStr _ => true
  end.

(** ** [TestGoodPractices]

    A test method is run on the object made by [setUp]; its value tells
    whether all its assertions held. *)

Definition test_name : str := [116; 101; 115; 116].
Definition test_item : str := [116; 101; 115; 116; 32; 105; 116; 101; 109].
Definition missing : str := [109; 105; 115; 115; 105; 110; 103].

Definition setUp : GoodPracticesExample := init test_name.

Definition assertEqual_str (r : option str) (expected : str) : bool :=
  match r with
  | Some s => eqb s expected
  | None => false
  end.

Definition assertIsNone (r : option str) : bool :=
  match r with
  | Some _ => false
  | None => true
  end.

Definition test_add_item_success : M bool :=
  r <- add_item test_item ;;
  c <- get_items_count ;;
  ret (r && Nat.eqb c 1).

Definition test_add_empty_item_fails : M bool :=
  r <- add_item [] ;;
  c <- get_items_count ;;
  ret (negb r && Nat.eqb c 0).

Definition test_find_item_exists (unicode_lower : str -> str) : M bool :=
  add_item hello_world ;;
  r <- find_item unicode_lower world ;;
  ret (assertEqual_str r hello_world).

Definition test_find_item_not_exists (unicode_lower : str -> str) : M bool :=
  r <- find_item unicode_lower missing ;;
  ret (assertIsNone r).

(** ** Facts about the string operations *)

Lemma whitespace_only_app (s t : str) :
  whitespace_only s -> whitespace_only t -> whitespace_only (s ++ t).
Proof.
  unfold whitespace_only. intros Hs Ht. apply Forall_app. split; assumption.
Qed.

Lemma whitespace_only_rev (s : str) :
  whitespace_only s -> whitespace_only (rev s).
Proof.
  unfold whitespace_only. intros Hs. apply Forall_rev. exact Hs.
Qed.

Lemma is_empty_true (s : str) : is_empty s = true <-> s = [].
Proof.
  destruct s; simpl; split; intros H; try reflexivity; discriminate.
Qed.

Lemma eqb_nil_r (s : str) : eqb s [] = is_empty s.
Proof.
  destruct s; reflexivity.
Qed.

Lemma eqb_eq (s t : str) : eqb s t = true <-> s = t.
Proof.
  revert t. induction s as [|a s IH]; intros [|b t]; simpl; split; intros H;
    try reflexivity; try discriminate.
  - apply andb_true_iff in H. destruct H as [Hab Hst].
    apply N.eqb_eq in Hab. apply IH in Hst. subst. reflexivity.
  - injection H as Hab Hst. subst. rewrite N.eqb_refl. simpl.
    apply IH. reflexivity.
Qed.

(** *** [lstrip] *)

Lemma lstrip_whitespace_only (s : str) :
  whitespace_only s -> lstrip s = [].
Proof.
  induction 1 as [|c s Hc _ IH]; simpl.
  - reflexivity.
  - rewrite Hc. exact IH.
Qed.

Lemma lstrip_skip (pre s : str) :
  whitespace_only pre -> lstrip (pre ++ s) = lstrip s.
Proof.
  induction 1 as [|c p Hc _ IH]; simpl.
  - reflexivity.
  - rewrite Hc. exact IH.
Qed.

Lemma lstrip_head (c : codepoint) (s : str) :
  isspace c = false -> lstrip (c :: s) = c :: s.
Proof.
  intros Hc. simpl. rewrite Hc. reflexivity.
Qed.

Lemma lstrip_split (s : str) :
  exists pre, s = pre ++ lstrip s /\ whitespace_only pre.
Proof.
  induction s as [|c s [pre [Heq Hws]]]; simpl.
  - exists []. split; [reflexivity | constructor].
  - destruct (isspace c) eqn:Hc.
    + exists (c :: pre). split.
      * simpl. f_equal. exact Heq.
      * constructor; assumption.
    + exists []. split; [reflexivity | constructor].
Qed.

Lemma lstrip_first (s : str) (c : codepoint) (r : str) :
  lstrip s = c :: r -> isspace c = false.
Proof.
  induction s as [|a s IH]; simpl.
  - discriminate.
  - destruct (isspace a) eqn:Ha.
    + exact IH.
    + intros H. injection H as H _. subst. exact Ha.
Qed.

(** *** [rstrip] *)

Lemma rstrip_split (s : str) :
  exists suf, s = rstrip s ++ suf /\ whitespace_only suf.
Proof.
  unfold rstrip. destruct (lstrip_split (rev s)) as [pre [Heq Hws]].
  exists (rev pre). split.
  - rewrite <- rev_app_distr, <- Heq, rev_involutive. reflexivity.
  - apply whitespace_only_rev. exact Hws.
Qed.

Lemma rstrip_last (s r : str) (c : codepoint) :
  rstrip s = r ++ [c] -> isspace c = false.
Proof.
  unfold rstrip. intros H.
  apply (f_equal (@rev codepoint)) in H.
  rewrite rev_involutive, rev_app_distr in H. simpl in H.
  exact (lstrip_first _ _ _ H).
Qed.

Lemma rstrip_skip (s suf : str) :
  whitespace_only suf -> rstrip (s ++ suf) = rstrip s.
Proof.
  intros Hws. unfold rstrip. rewrite rev_app_distr.
  rewrite lstrip_skip by (apply whitespace_only_rev; exact Hws).
  reflexivity.
Qed.

Lemma rstrip_tail (r : str) (c : codepoint) :
  isspace c = false -> rstrip (r ++ [c]) = r ++ [c].
Proof.
  intros Hc. unfold rstrip. rewrite rev_app_distr. simpl.
  rewrite Hc. simpl. rewrite rev_involutive. reflexivity.
Qed.

(** *** [strip] *)

Lemma strip_nil : strip [] = [].
Proof. reflexivity. Qed.

Lemma strip_whitespace_only (s : str) :
  whitespace_only s -> strip s = [].
Proof.
  intros H. unfold strip. rewrite (lstrip_whitespace_only s H). reflexivity.
Qed.

Lemma strip_no_outer_space (s : str) : no_outer_space (strip s).
Proof.
  unfold strip. split.
  - intros c r H.
    destruct (rstrip_split (lstrip s)) as [suf [Heq _]].
    rewrite H in Heq. simpl in Heq.
    exact (lstrip_first _ _ _ Heq).
  - intros r c H. exact (rstrip_last _ _ _ H).
Qed.

Lemma strip_trimmed_of (s : str) : trimmed_of s (strip s).
Proof.
  destruct (lstrip_split s) as [pre [Hpre Wpre]].
  destruct (rstrip_split (lstrip s)) as [suf [Hsuf Wsuf]].
  exists pre, suf. repeat split.
  - unfold strip. rewrite <- Hsuf. exact Hpre.
  - exact Wpre.
  - exact Wsuf.
  - apply strip_no_outer_space.
  - apply strip_no_outer_space.
Qed.

Lemma strip_fixed (t : str) : no_outer_space t -> strip t = t.
Proof.
  intros [Hfirst Hlast]. unfold strip.
  destruct t as [|c r].
  - reflexivity.
  - rewrite (lstrip_head c r (Hfirst c r eq_refl)).
    destruct (exists_last (l := c :: r)) as [r' [c' Heq]]; [discriminate|].
    rewrite Heq. apply rstrip_tail. exact (Hlast r' c' Heq).
Qed.

Lemma strip_idempotent (s : str) : strip (strip s) = strip s.
Proof.
  apply strip_fixed. apply strip_no_outer_space.
Qed.

(** The trimmed form is determined by [trimmed_of]: it is [strip]. *)
Lemma trimmed_of_unique (s t : str) : trimmed_of s t -> t = strip s.
Proof.
  intros [pre [suf [Heq [Wpre [Wsuf Hno]]]]]. subst s.
  unfold strip. rewrite (lstrip_skip pre _ Wpre).
  destruct t as [|c r].
  - simpl. rewrite (lstrip_whitespace_only suf Wsuf). reflexivity.
  - destruct Hno as [Hfirst Hlast].
    change ((c :: r) ++ suf) with (c :: (r ++ suf)).
    rewrite (lstrip_head c (r ++ suf) (Hfirst c r eq_refl)).
    change (c :: (r ++ suf)) with ((c :: r) ++ suf).
    rewrite (rstrip_skip _ suf Wsuf).
    destruct (exists_last (l := c :: r)) as [r' [c' Heq]]; [discriminate|].
    rewrite Heq. symmetry. apply rstrip_tail. exact (Hlast r' c' Heq).
Qed.

Lemma strip_empty_iff (s : str) : strip s = [] <-> whitespace_only s.
Proof.
  split.
  - intros H. destruct (strip_trimmed_of s) as [pre [suf [Heq [Wpre [Wsuf _]]]]].
    rewrite H in Heq. simpl in Heq. rewrite Heq.
    apply whitespace_only_app; assumption.
  - apply strip_whitespace_only.
Qed.

Lemma strip_valid_item (s : str) : strip s <> [] -> valid_item (strip s).
Proof.
  intros Hne. repeat split.
  - exact Hne.
  - intros Hws. apply Hne. rewrite <- (strip_idempotent s).
    apply strip_whitespace_only. exact Hws.
  - apply strip_idempotent.
Qed.

(** *** [startswith] and [in] *)

Lemma startswith_spec (s p : str) :
  startswith s p = true <-> exists suf, s = p ++ suf.
Proof.
  revert s. induction p as [|a p IH]; intros s; simpl.
  - split; [intros _; exists s; reflexivity | reflexivity].
  - destruct s as [|b s].
    + split; [discriminate | intros [suf H]; discriminate].
    + rewrite andb_true_iff, N.eqb_eq, IH. split.
      * intros [Hab [suf Hs]]. exists suf. subst. reflexivity.
      * intros [suf H]. injection H as Hb Hs. subst.
        split; [reflexivity | exists suf; reflexivity].
Qed.

Lemma contains_spec (s sub : str) :
  contains s sub = true <-> substring sub s.
Proof.
  unfold substring. induction s as [|b s IH]; simpl.
  - rewrite orb_false_r, startswith_spec. split.
    + intros [suf H]. exists [], suf. exact H.
    + intros [pre [suf H]]. destruct pre as [|x pre]; [|discriminate].
      exists suf. exact H.
  - rewrite orb_true_iff, startswith_spec, IH. split.
    + intros [[suf H] | [pre [suf H]]].
      * exists [], suf. exact H.
      * exists (b :: pre), suf. rewrite H. reflexivity.
    + intros [pre [suf H]]. destruct pre as [|x pre].
      * left. exists suf. exact H.
      * right. injection H as _ H. exists pre, suf. exact H.
Qed.

Lemma contains_nil (s : str) : contains s [] = true.
Proof.
  destruct s; reflexivity.
Qed.

Lemma lower_nil (unicode_lower : str -> str) : lower unicode_lower [] = [].
Proof. reflexivity. Qed.

(** ** Facts about the methods *)

Section FindFacts.

Variable unicode_lower : str -> str.

Lemma hit_matches (t item : str) :
  hit unicode_lower t item = true <-> matches unicode_lower t item.
Proof.
  unfold hit, matches. apply contains_spec.
Qed.

Lemma miss_matches (t item : str) :
  hit unicode_lower t item = false <-> ~ matches unicode_lower t item.
Proof.
  rewrite <- hit_matches. destruct (hit unicode_lower t item); split; intros H;
    try reflexivity; try discriminate.
  exfalso. apply H. reflexivity.
Qed.

Lemma find_loop_cons (t item : str) (rest : list str) :
  find_loop unicode_lower t (item :: rest) =
  if hit unicode_lower t item then Some item else find_loop unicode_lower t rest.
Proof. reflexivity. Qed.

(** The loop returns [x] exactly when [x] sits at some index [i], matches,
    and nothing before index [i] matches. *)
Lemma find_loop_some (t : str) (l : list str) (x : str) :
  find_loop unicode_lower t l = Some x <->
  exists i, nth_error l i = Some x /\ matches unicode_lower t x /\
            forall j y, (j < i)%nat -> nth_error l j = Some y ->
                        ~ matches unicode_lower t y.
Proof.
  induction l as [|a l IH].
  - simpl. split; [discriminate|].
    intros [i [H _]]. destruct i; discriminate.
  - rewrite find_loop_cons. destruct (hit unicode_lower t a) eqn:Ha.
    + split.
      * intros H. injection H as H. subst a. exists 0%nat.
        split; [reflexivity|]. split; [apply hit_matches; exact Ha|].
        intros j y Hj. lia.
      * intros [i [Hi [Hm Hbefore]]]. destruct i as [|i].
        -- simpl in Hi. exact Hi.
        -- exfalso. apply (Hbefore 0%nat a); [lia | reflexivity |].
           apply hit_matches. exact Ha.
    + rewrite IH. split.
      * intros [i [Hi [Hm Hbefore]]]. exists (S i).
        split; [exact Hi|]. split; [exact Hm|].
        intros j y Hj Hy. destruct j as [|j].
        -- simpl in Hy. injection Hy as Hy. subst y.
           apply miss_matches. exact Ha.
        -- apply (Hbefore j y); [lia | exact Hy].
      * intros [i [Hi [Hm Hbefore]]]. destruct i as [|i].
        -- simpl in Hi. injection Hi as Hi. subst x.
           apply miss_matches in Ha. contradiction.
        -- exists i. split; [exact Hi|]. split; [exact Hm|].
           intros j y Hj Hy. apply (Hbefore (S j) y); [lia | exact Hy].
Qed.

Lemma find_loop_none (t : str) (l : list str) :
  find_loop unicode_lower t l = None <->
  Forall (fun y => ~ matches unicode_lower t y) l.
Proof.
  induction l as [|a l IH].
  - simpl. split; [constructor | reflexivity].
  - rewrite find_loop_cons. destruct (hit unicode_lower t a) eqn:Ha.
    + split; [discriminate|]. intros H. inversion H as [|? ? Hna _]; subst.
      exfalso. apply Hna. apply hit_matches. exact Ha.
    + rewrite IH. split.
      * intros H. constructor; [apply miss_matches; exact Ha | exact H].
      * intros H. inversion H; assumption.
Qed.

Lemma find_loop_empty_term (l : list str) :
  find_loop unicode_lower [] l = hd_error l.
Proof.
  destruct l as [|a l]; [reflexivity|].
  rewrite find_loop_cons. unfold hit. rewrite lower_nil, contains_nil.
  reflexivity.
Qed.

End FindFacts.

(** *** [add_item] *)

Lemma add_item_guard (item : str) :
  is_empty item || eqb (strip item) [] = is_empty (strip item).
Proof.
  rewrite eqb_nil_r. destruct item as [|c r]; reflexivity.
Qed.

Lemma add_item_reject (item : str) (self : GoodPracticesExample) :
  strip item = [] -> add_item item self = (false, self).
Proof.
  intros H. unfold add_item. rewrite add_item_guard, H. reflexivity.
Qed.

Lemma add_item_accept (item : str) (self : GoodPracticesExample) :
  strip item <> [] ->
  add_item item self = (true, mkGood (name self) (items self ++ [strip item])).
Proof.
  intros H. unfold add_item. rewrite add_item_guard.
  destruct (strip item) as [|c r] eqn:E; [contradiction|]. reflexivity.
Qed.

Lemma add_item_items (item : str) (self : GoodPracticesExample) :
  exists added, items (after (add_item item) self) = items self ++ added.
Proof.
  unfold after. destruct (strip item) as [|c r] eqn:E.
  - rewrite (add_item_reject item self E). exists []. simpl.
    rewrite app_nil_r. reflexivity.
  - rewrite add_item_accept by (rewrite E; discriminate).
    exists [strip item]. reflexivity.
Qed.

Lemma add_item_invariant (item : str) (self : GoodPracticesExample) :
  invariant self -> invariant (after (add_item item) self).
Proof.
  unfold invariant, after. intros Hinv.
  destruct (strip item) as [|c r] eqn:E.
  - rewrite (add_item_reject item self E). exact Hinv.
  - assert (Hne : strip item <> []) by (rewrite E; discriminate).
    rewrite (add_item_accept item self Hne). simpl.
    apply Forall_app. split; [exact Hinv|].
    constructor; [apply strip_valid_item; exact Hne | constructor].
Qed.

(** *** The two queries *)

Lemma get_items_count_eq (self : GoodPracticesExample) :
  get_items_count self = (length (items self), self).
Proof. reflexivity. Qed.

Lemma find_item_eq (unicode_lower : str -> str) (t : str)
      (self : GoodPracticesExample) :
  find_item unicode_lower t self =
  (find_loop unicode_lower t (items self), self).
Proof. reflexivity. Qed.

(** *** Sequences of calls *)

Section Calls.

Variable unicode_lower : str -> str.

Lemma exec_items (c : call) (self : GoodPracticesExample) :
  exists added, items (exec unicode_lower c self) = items self ++ added.
Proof.
  destruct c as [item| |t]; simpl.
  - apply add_item_items.
  - exists []. unfold after. rewrite get_items_count_eq. simpl.
    rewrite app_nil_r. reflexivity.
  - exists []. unfold after. rewrite find_item_eq. simpl.
    rewrite app_nil_r. reflexivity.
Qed.

Lemma exec_invariant (c : call) (self : GoodPracticesExample) :
  invariant self -> invariant (exec unicode_lower c self).
Proof.
  destruct c as [item| |t]; simpl; intros H.
  - apply add_item_invariant. exact H.
  - exact H.
  - exact H.
Qed.

Lemma run_cons (c : call) (cs : list call) (self : GoodPracticesExample) :
  run unicode_lower (c :: cs) self =
  run unicode_lower cs (exec unicode_lower c self).
Proof. reflexivity. Qed.

Lemma run_items (cs : list call) (self : GoodPracticesExample) :
  exists added, items (run unicode_lower cs self) = items self ++ added.
Proof.
  revert self. induction cs as [|c cs IH]; intros self.
  - exists []. simpl. rewrite app_nil_r. reflexivity.
  - rewrite run_cons. destruct (IH (exec unicode_lower c self)) as [l2 H2].
    destruct (exec_items c self) as [l1 H1].
    exists (l1 ++ l2). rewrite H2, H1, app_assoc. reflexivity.
Qed.

Lemma run_invariant (cs : list call) (self : GoodPracticesExample) :
  invariant self -> invariant (run unicode_lower cs self).
Proof.
  revert self. induction cs as [|c cs IH]; intros self H.
  - exact H.
  - rewrite run_cons. apply IH. apply exec_invariant. exact H.
Qed.

End Calls.

Lemma init_invariant (n : str) : invariant (init n).
Proof.
  unfold invariant, init. simpl. constructor.
Qed.

Lemma hello_world_valid : valid_item hello_world.
Proof.
  unfold valid_item. split; [discriminate|]. split; [|reflexivity].
  intros H. inversion H as [|? ? Hc _]. discriminate Hc.
Qed.

(** ** The properties of the specification *)

Example strip_example :
  strip [32; 9; 104; 105; 32; 116; 10; 32] = [104; 105; 32; 116].
Proof. reflexivity. Qed.

Example lower_example (unicode_lower : str -> str) :
  lower unicode_lower WORLD = world.
Proof. reflexivity. Qed.

(** C1. [add_item item] trims the surrounding whitespace of [item]: there is
    a trimmed form [t] of [item] such that, if [t] is empty, the call returns
    [False] and leaves the object as it was, and otherwise the call returns
    [True] and leaves the object with exactly [t] appended at the end of
    [items]. *)
Theorem add_item_trims_and_appends (self : GoodPracticesExample) (item : str) :
  exists t,
    trimmed_of item t /\
    ((t = [] /\ add_item item self = (false, self)) \/
     (t <> [] /\
      add_item item self = (true, mkGood (name self) (items self ++ [t])))).
Proof.
  exists (strip item). split; [apply strip_trimmed_of|].
  destruct (strip item) as [|c r] eqn:E.
  - left. split; [reflexivity|]. apply add_item_reject. exact E.
  - right. split; [discriminate|]. rewrite <- E. apply add_item_accept.
    rewrite E. discriminate.
Qed.

(** C2. Every stored item is non-empty, is not whitespace-only and equals
    its own trimmed form: this holds of a fresh object, every call of
    [add_item], [get_items_count] or [find_item] preserves it, and so it
    holds after every sequence of calls on a fresh object. *)
Theorem invariant_always (unicode_lower : str -> str) (n : str)
        (self : GoodPracticesExample) (c : call) (cs : list call) :
  invariant (init n) /\
  (invariant self -> invariant (exec unicode_lower c self)) /\
  invariant (run unicode_lower cs (init n)).
Proof.
  split; [apply init_invariant|]. split.
  - apply exec_invariant.
  - apply run_invariant. apply init_invariant.
Qed.

Lemma invariant_always_witness :
  invariant (mkGood [] [hello_world]) /\
  invariant (exec no_unicode (Add [32; 119; 111; 114; 108; 100; 32])
                  (mkGood [] [hello_world])) /\
  invariant (run no_unicode [Add [9; 104; 105]; Count; Add three_spaces; Find world]
                 (init [])).
Proof.
  assert (H : invariant (mkGood [] [hello_world])).
  { constructor; [exact hello_world_valid | constructor]. }
  split; [exact H|]. split.
  - exact (proj1 (proj2 (invariant_always no_unicode []
             (mkGood [] [hello_world])
             (Add [32; 119; 111; 114; 108; 100; 32]) [])) H).
  - exact (proj2 (proj2 (invariant_always no_unicode []
             (mkGood [] [hello_world]) Count
             [Add [9; 104; 105]; Count; Add three_spaces; Find world]))).
Defined.

(** C3. If [s] is non-empty after trimming, [add_item s] returns [True] and
    [get_items_count] afterwards is one more than before. *)
Theorem add_item_increments_count (self : GoodPracticesExample) (s : str) :
  strip s <> [] ->
  result (add_item s) self = true /\
  result get_items_count (after (add_item s) self) =
  (result get_items_count self + 1)%nat.
Proof.
  intros H. unfold result, after. rewrite (add_item_accept s self H).
  rewrite !get_items_count_eq. simpl. split; [reflexivity|].
  apply length_app.
Qed.

Lemma add_item_increments_count_witness :
  strip hello_world <> [] /\
  result (add_item hello_world) (init world) = true /\
  result get_items_count (after (add_item hello_world) (init world)) =
  (result get_items_count (init world) + 1)%nat.
Proof.
  assert (H : strip hello_world <> []) by (vm_compute; discriminate).
  split; [exact H|].
  exact (add_item_increments_count (init world) hello_world H).
Defined.

(** C4. [add_item] of the empty string, of three spaces, and of any
    whitespace-only string returns [False] (a value, the method is total:
    nothing is raised), and leaves the object, so its items and their count,
    as they were. *)
Theorem add_item_rejects_blank (self : GoodPracticesExample) (s : str) :
  s = [] \/ s = three_spaces \/ whitespace_only s ->
  add_item s self = (false, self) /\
  items (after (add_item s) self) = items self /\
  result get_items_count (after (add_item s) self) =
  result get_items_count self.
Proof.
  intros H.
  assert (E : add_item s self = (false, self)).
  { apply add_item_reject. destruct H as [H | [H | H]].
    - subst s. reflexivity.
    - subst s. reflexivity.
    - apply strip_whitespace_only. exact H. }
  unfold after, result. rewrite E. simpl. repeat split; reflexivity.
Qed.

Lemma add_item_rejects_blank_witness :
  add_item three_spaces (mkGood world [hello_world]) =
    (false, mkGood world [hello_world]) /\
  add_item [9; 10; 160; 8195] (mkGood world [hello_world]) =
    (false, mkGood world [hello_world]).
Proof.
  split.
  - apply (add_item_rejects_blank (mkGood world [hello_world]) three_spaces).
    right. left. reflexivity.
  - apply (add_item_rejects_blank (mkGood world [hello_world]) [9; 10; 160; 8195]).
    right. right. unfold whitespace_only.
    repeat (constructor; [reflexivity|]). constructor.
Defined.

(** C5. [find_item term] returns the item [x] exactly when [x] is stored at
    some position [i], the lower-cased [term] is a substring of the
    lower-cased [x], and no item stored before position [i] matches in that
    way: the result is the earliest-inserted matching item. *)
Theorem find_item_first_match (unicode_lower : str -> str)
        (self : GoodPracticesExample) (term x : str) :
  result (find_item unicode_lower term) self = Some x <->
  exists i,
    nth_error (items self) i = Some x /\
    matches unicode_lower term x /\
    forall j y, (j < i)%nat -> nth_error (items self) j = Some y ->
                ~ matches unicode_lower term y.
Proof.
  unfold result. rewrite find_item_eq. simpl. apply find_loop_some.
Qed.

Lemma find_item_first_match_witness :
  result (find_item no_unicode WORLD)
         (mkGood [] [three_spaces; hello_world; world]) = Some hello_world.
Proof.
  apply (find_item_first_match no_unicode
           (mkGood [] [three_spaces; hello_world; world]) WORLD hello_world).
  exists 1%nat. split; [reflexivity|]. split.
  - exists [104; 101; 108; 108; 111; 32], []. reflexivity.
  - intros j y Hj Hy. destruct j as [|j]; [|lia].
    simpl in Hy. injection Hy as Hy. subst y.
    intros Hm. apply contains_spec in Hm. discriminate Hm.
Defined.

(** C6. On an object without items, or when no stored item matches the
    term, [find_item] returns [None], which is no stored string. *)
Theorem find_item_not_found (unicode_lower : str -> str)
        (self : GoodPracticesExample) (term : str) :
  items self = [] \/
  Forall (fun y => ~ matches unicode_lower term y) (items self) ->
  result (find_item unicode_lower term) self = None /\
  forall s : str, result (find_item unicode_lower term) self <> Some s.
Proof.
  intros H.
  assert (E : result (find_item unicode_lower term) self = None).
  { unfold result. rewrite find_item_eq. simpl. apply find_loop_none.
    destruct H as [H | H]; [rewrite H; constructor | exact H]. }
  split; [exact E|]. intros s. rewrite E. discriminate.
Qed.

Lemma find_item_not_found_witness :
  result (find_item no_unicode world) (init []) = None /\
  result (find_item no_unicode WORLD) (mkGood [] [three_spaces]) = None.
Proof.
  split.
  - apply (find_item_not_found no_unicode (init []) world).
    left. reflexivity.
  - apply (find_item_not_found no_unicode (mkGood [] [three_spaces]) WORLD).
    right. constructor; [|constructor].
    intros Hm. apply contains_spec in Hm. discriminate Hm.
Defined.

(** C7. On a fresh object, [add_item "hello world"] returns [True], and then
    [find_item "world"] and [find_item "WORLD"] both return
    ["hello world"]. *)
Theorem hello_world_found (unicode_lower : str -> str) (n : str) :
  result (add_item hello_world) (init n) = true /\
  result (find_item unicode_lower world)
         (after (add_item hello_world) (init n)) = Some hello_world /\
  result (find_item unicode_lower WORLD)
         (after (add_item hello_world) (init n)) = Some hello_world.
Proof.
  repeat split; reflexivity.
Qed.

(** C8. [find_item] leaves the object as it was, its [name] and its [items]
    in particular, and so does [get_items_count]. *)
Theorem queries_do_not_mutate (unicode_lower : str -> str)
        (self : GoodPracticesExample) (term : str) :
  after (find_item unicode_lower term) self = self /\
  name (after (find_item unicode_lower term) self) = name self /\
  items (after (find_item unicode_lower term) self) = items self /\
  after get_items_count self = self.
Proof.
  unfold after. rewrite find_item_eq, get_items_count_eq. simpl.
  repeat split; reflexivity.
Qed.

(** C9. A fresh object has count 0; no call removes an item: after one call,
    and after any sequence of calls, the items are the former items followed
    by the added ones, and the count is at least what it was. *)
Theorem count_never_decreases (unicode_lower : str -> str) (n : str)
        (self : GoodPracticesExample) (c : call) (cs : list call) :
  result get_items_count (init n) = 0%nat /\
  (result get_items_count self <=
   result get_items_count (exec unicode_lower c self))%nat /\
  (result get_items_count self <=
   result get_items_count (run unicode_lower cs self))%nat /\
  exists added, items (run unicode_lower cs self) = items self ++ added.
Proof.
  unfold result. rewrite !get_items_count_eq. simpl.
  destruct (exec_items unicode_lower c self) as [l1 H1].
  destruct (run_items unicode_lower cs self) as [l2 H2].
  split; [reflexivity|]. split; [|split].
  - rewrite H1, length_app. lia.
  - rewrite H2, length_app. lia.
  - exists l2. exact H2.
Qed.

(** C10. [find_item ""] returns the earliest-inserted item of an object
    that has items, and [None] only on an object without items. *)
Theorem find_item_empty_term (unicode_lower : str -> str)
        (self : GoodPracticesExample) :
  match items self with
  | [] => result (find_item unicode_lower []) self = None
  | first :: _ => result (find_item unicode_lower []) self = Some first
  end.
Proof.
  unfold result. rewrite find_item_eq. simpl.
  rewrite find_loop_empty_term. destruct (items self); reflexivity.
Qed.


(** ** Further properties of [GoodPracticesExample] *)

Lemma contains_refl (s : str) : contains s s = true.
Proof.
  apply contains_spec. exists [], []. rewrite app_nil_r. reflexivity.
Qed.

Lemma strip_padded (pre s suf : str) :
  whitespace_only pre -> whitespace_only suf ->
  strip (pre ++ s ++ suf) = strip s.
Proof.
  intros Wpre Wsuf. symmetry. apply trimmed_of_unique.
  destruct (strip_trimmed_of s) as [p [q [Heq [Wp [Wq Hno]]]]].
  exists (pre ++ p), (q ++ suf). split; [|split; [|split]].
  - rewrite Heq at 1. rewrite <- !app_assoc. reflexivity.
  - apply whitespace_only_app; assumption.
  - apply whitespace_only_app; assumption.
  - exact Hno.
Qed.

Lemma add_item_after (item : str) (self : GoodPracticesExample) :
  after (add_item item) self =
  mkGood (name self) (items self ++ stored_by (Add item)).
Proof.
  unfold after. simpl. destruct (strip item) as [|c r] eqn:E.
  - rewrite (add_item_reject item self E). simpl. rewrite app_nil_r.
    destruct self; reflexivity.
  - rewrite add_item_accept by (rewrite E; discriminate).
    rewrite E. reflexivity.
Qed.

Section MoreFacts.

Variable unicode_lower : str -> str.

Lemma find_loop_app (t : str) (l1 l2 : list str) :
  find_loop unicode_lower t (l1 ++ l2) =
  match find_loop unicode_lower t l1 with
  | Some x => Some x
  | None => find_loop unicode_lower t l2
  end.
Proof.
  induction l1 as [|a l1 IH]; simpl.
  - reflexivity.
  - destruct (hit unicode_lower t a); [reflexivity | exact IH].
Qed.

Lemma find_loop_in (t : str) (l : list str) (x : str) :
  find_loop unicode_lower t l = Some x ->
  In x l /\ hit unicode_lower t x = true.
Proof.
  induction l as [|a l IH]; simpl.
  - discriminate.
  - destruct (hit unicode_lower t a) eqn:Ha.
    + intros H. injection H as H. subst a. split; [left; reflexivity | exact Ha].
    + intros H. destruct (IH H) as [Hin Hx]. split; [right; exact Hin | exact Hx].
Qed.

Lemma find_loop_hit (t : str) (l : list str) (x : str) :
  In x l -> hit unicode_lower t x = true ->
  find_loop unicode_lower t l <> None.
Proof.
  induction l as [|a l IH]; simpl.
  - intros [].
  - intros [Hx | Hx] Hh.
    + subst a. rewrite Hh. discriminate.
    + destruct (hit unicode_lower t a); [discriminate | exact (IH Hx Hh)].
Qed.

Lemma find_loop_same_lower (t1 t2 : str) (l : list str) :
  lower unicode_lower t1 = lower unicode_lower t2 ->
  find_loop unicode_lower t1 l = find_loop unicode_lower t2 l.
Proof.
  intros Heq. induction l as [|a l IH]; simpl.
  - reflexivity.
  - unfold hit. rewrite Heq, IH. reflexivity.
Qed.

Lemma exec_after (c : call) (self : GoodPracticesExample) :
  exec unicode_lower c self = mkGood (name self) (items self ++ stored_by c).
Proof.
  destruct c as [item| |t]; simpl.
  - apply add_item_after.
  - unfold after. rewrite get_items_count_eq. simpl. rewrite app_nil_r.
    destruct self; reflexivity.
  - unfold after. rewrite find_item_eq. simpl. rewrite app_nil_r.
    destruct self; reflexivity.
Qed.

Lemma run_after (cs : list call) (self : GoodPracticesExample) :
  run unicode_lower cs self = mkGood (name self) (items self ++ accepted cs).
Proof.
  revert self. induction cs as [|c cs IH]; intros self.
  - simpl. rewrite app_nil_r. destruct self; reflexivity.
  - rewrite run_cons, IH, exec_after. simpl. rewrite <- app_assoc.
    reflexivity.
Qed.

End MoreFacts.

(** X1. After any sequence of calls the name is what it was, and the items
    are the former items followed, in call order, by the trimmed argument of
    every [add_item] call whose argument was not blank; the count has grown
    by the number of those calls. *)
Theorem run_stores_accepted (unicode_lower : str -> str) (cs : list call)
        (self : GoodPracticesExample) :
  name (run unicode_lower cs self) = name self /\
  items (run unicode_lower cs self) = items self ++ accepted cs /\
  result get_items_count (run unicode_lower cs self) =
  (result get_items_count self + length (accepted cs))%nat.
Proof.
  rewrite run_after. unfold result. rewrite !get_items_count_eq. simpl.
  split; [reflexivity|]. split; [reflexivity|]. apply length_app.
Qed.

(** X2. Whitespace around the argument makes no difference to [add_item]:
    the padded and the unpadded string give the same result and leave the
    same object. *)
Theorem add_item_ignores_padding (self : GoodPracticesExample)
        (pre s suf : str) :
  whitespace_only pre -> whitespace_only suf ->
  add_item (pre ++ s ++ suf) self = add_item s self.
Proof.
  intros Wpre Wsuf. destruct (strip s) as [|c r] eqn:E.
  - rewrite !add_item_reject; [reflexivity | exact E |].
    rewrite strip_padded; assumption.
  - assert (Hs : strip s <> []) by (rewrite E; discriminate).
    assert (Hp : strip (pre ++ s ++ suf) <> []).
    { rewrite strip_padded; assumption. }
    rewrite (add_item_accept _ self Hp), (add_item_accept _ self Hs).
    rewrite strip_padded by assumption. reflexivity.
Qed.

Lemma add_item_ignores_padding_witness :
  add_item ([32; 9] ++ world ++ [10]) (init test_name) =
  add_item world (init test_name).
Proof.
  apply (add_item_ignores_padding (init test_name) [32; 9] world [10]).
  - unfold whitespace_only. repeat (constructor; [reflexivity|]). constructor.
  - unfold whitespace_only. repeat (constructor; [reflexivity|]). constructor.
Defined.

(** X3. [find_item] after [add_item]: a search that had a result keeps it;
    a search that had none finds the new item if the item was stored and
    matches, and nothing otherwise. *)
Theorem find_item_after_add_item (unicode_lower : str -> str)
        (self : GoodPracticesExample) (item term : str) :
  result (find_item unicode_lower term) (after (add_item item) self) =
  match result (find_item unicode_lower term) self with
  | Some x => Some x
  | None =>
      if negb (is_empty (strip item)) && hit unicode_lower term (strip item)
      then Some (strip item)
      else None
  end.
Proof.
  rewrite add_item_after. unfold result. rewrite !find_item_eq. simpl.
  rewrite find_loop_app.
  destruct (find_loop unicode_lower term (items self)); [reflexivity|].
  destruct (strip item) as [|c r]; simpl; [reflexivity|].
  destruct (hit unicode_lower term (c :: r)); reflexivity.
Qed.

(** X4. Once [find_item] has returned an item for a term, it returns the
    same item for that term after any further sequence of calls. *)
Theorem find_item_stable (unicode_lower : str -> str)
        (self : GoodPracticesExample) (term x : str) (cs : list call) :
  result (find_item unicode_lower term) self = Some x ->
  result (find_item unicode_lower term) (run unicode_lower cs self) = Some x.
Proof.
  unfold result. rewrite run_after, !find_item_eq. simpl. intros H.
  rewrite find_loop_app, H. reflexivity.
Qed.

Lemma find_item_stable_witness :
  result (find_item no_unicode WORLD)
         (run no_unicode [Add world; Find test_name; Add WORLD; Count]
              (mkGood [] [hello_world])) = Some hello_world.
Proof.
  apply (find_item_stable no_unicode (mkGood [] [hello_world]) WORLD
           hello_world [Add world; Find test_name; Add WORLD; Count]).
  reflexivity.
Defined.

(** X5. A stored item is found by its own text: searching for a stored
    item [x] never returns [None]; it returns a stored item whose lower-cased
    form contains the lower-cased [x]. *)
Theorem find_item_finds_stored (unicode_lower : str -> str)
        (self : GoodPracticesExample) (x : str) :
  In x (items self) ->
  exists y,
    result (find_item unicode_lower x) self = Some y /\
    In y (items self) /\ matches unicode_lower x y.
Proof.
  intros Hin. unfold result. rewrite find_item_eq. simpl.
  destruct (find_loop unicode_lower x (items self)) as [y|] eqn:E.
  - exists y. split; [reflexivity|].
    destruct (find_loop_in unicode_lower x (items self) y E) as [Hy Hh].
    split; [exact Hy | apply hit_matches; exact Hh].
  - exfalso. apply (find_loop_hit unicode_lower x (items self) x Hin);
      [apply contains_refl | exact E].
Qed.

Lemma find_item_finds_stored_witness :
  exists y,
    result (find_item no_unicode world) (mkGood [] [hello_world; world]) =
      Some y /\
    In y [hello_world; world] /\ matches no_unicode world y.
Proof.
  apply (find_item_finds_stored no_unicode (mkGood [] [hello_world; world])
           world).
  right. left. reflexivity.
Defined.

(** X6. For ASCII search terms only the letters count, not their case: two
    ASCII terms with the same ASCII lower-casing give the same result on
    every object. *)
Theorem find_item_term_case (unicode_lower : str -> str)
        (self : GoodPracticesExample) (t1 t2 : str) :
  is_ascii t1 = true -> is_ascii t2 = true ->
  map ascii_tolower t1 = map ascii_tolower t2 ->
  find_item unicode_lower t1 self = find_item unicode_lower t2 self.
Proof.
  intros H1 H2 Heq. rewrite !find_item_eq. f_equal.
  apply find_loop_same_lower. unfold lower. rewrite H1, H2. exact Heq.
Qed.

Lemma find_item_term_case_witness :
  find_item no_unicode WORLD (mkGood [] [three_spaces; hello_world]) =
  find_item no_unicode world (mkGood [] [three_spaces; hello_world]).
Proof.
  apply (find_item_term_case no_unicode
           (mkGood [] [three_spaces; hello_world]) WORLD world);
    reflexivity.
Defined.

(** ** [process_data] *)

Lemma combine_seq_snoc {V : Type} (l : list V) (v : V) (a : nat) :
  combine (seq a (length (l ++ [v]))) (l ++ [v]) =
  combine (seq a (length l)) l ++ [((a + length l)%nat, v)].
Proof.
  revert a. induction l as [|x l IH]; intros a; simpl.
  - rewrite Nat.add_0_r. reflexivity.
  - rewrite IH. rewrite Nat.add_succ_r. reflexivity.
Qed.

Lemma enumerate_snoc {V : Type} (l : list V) (v : V) :
  enumerate (l ++ [v]) = enumerate l ++ [(length l, v)].
Proof.
  unfold enumerate. apply (combine_seq_snoc l v 0).
Qed.

Lemma enumerate_length {V : Type} (l : list V) :
  length (enumerate l) = length l.
Proof.
  unfold enumerate. rewrite length_combine, length_seq. apply Nat.min_id.
Qed.

Lemma enumerate_keys {V : Type} (l : list V) :
  map fst (enumerate l) = seq 0 (length l).
Proof.
  unfold enumerate. generalize 0%nat.
  induction l as [|x l IH]; intros a; simpl.
  - reflexivity.
  - rewrite IH. reflexivity.
Qed.

Lemma enumerate_values {V : Type} (l : list V) :
  map snd (enumerate l) = l.
Proof.
  unfold enumerate. generalize 0%nat.
  induction l as [|x l IH]; intros a; simpl.
  - reflexivity.
  - rewrite IH. reflexivity.
Qed.

Lemma dict_set_fresh {V : Type} (d : list (nat * V)) (k : nat) (v : V) :
  ~ In k (map fst d) -> dict_set d k v = d ++ [(k, v)].
Proof.
  induction d as [|[k' v'] d IH]; simpl; intros Hk.
  - reflexivity.
  - destruct (Nat.eqb k' k) eqn:Ek.
    + apply Nat.eqb_eq in Ek. exfalso. apply Hk. left. exact Ek.
    + rewrite IH; [reflexivity|]. intros Hin. apply Hk. right. exact Hin.
Qed.

Lemma dict_set_enumerate {V : Type} (l : list V) (v : V) :
  dict_set (enumerate l) (length (enumerate l)) v = enumerate (l ++ [v]).
Proof.
  rewrite enumerate_length, enumerate_snoc. apply dict_set_fresh.
  rewrite enumerate_keys, in_seq. lia.
Qed.

Section ProcessDataFacts.

Context {V E : Type} {D : Element V E}.

Variables flag2 flag3 special_mode debug_mode override_safety
          use_cache validate_input transform_output : bool.

Lemma process_loop_list (data l0 : list V) :
  (process_loop flag2 flag3 special_mode debug_mode override_safety
     use_cache validate_input transform_output) data (PyList l0) =
  match (temps flag2 flag3 special_mode debug_mode override_safety
     use_cache validate_input transform_output) data with
  | inl e => inl e
  | inr ts => inr (PyList (l0 ++ ts))
  end.
Proof.
  revert l0.
  induction data as [|i rest IH]; intros l0; simpl.
  - rewrite app_nil_r. reflexivity.
  - destruct (temp_of _ _ _ _ _ _ _ _ i) as [e|temp]; [reflexivity|].
    rewrite IH. destruct (temps _ _ _ _ _ _ _ _ rest) as [e|ts];
      [reflexivity|]. rewrite <- app_assoc. reflexivity.
Qed.

Lemma process_loop_dict (data l0 : list V) :
  (process_loop flag2 flag3 special_mode debug_mode override_safety
     use_cache validate_input transform_output) data (PyDict (enumerate l0)) =
  match (temps flag2 flag3 special_mode debug_mode override_safety
     use_cache validate_input transform_output) data with
  | inl e => inl e
  | inr ts => inr (PyDict (enumerate (l0 ++ ts)))
  end.
Proof.
  revert l0.
  induction data as [|i rest IH]; intros l0; simpl.
  - rewrite app_nil_r. reflexivity.
  - destruct (temp_of _ _ _ _ _ _ _ _ i) as [e|temp]; [reflexivity|].
    rewrite dict_set_enumerate, IH.
    destruct (temps _ _ _ _ _ _ _ _ rest) as [e|ts]; [reflexivity|].
    rewrite <- app_assoc. reflexivity.
Qed.

Lemma process_data_temps (data : list V) (flag1 : bool) :
  process_data data flag1 flag2 flag3 special_mode debug_mode override_safety
               use_cache validate_input transform_output =
  match (temps flag2 flag3 special_mode debug_mode override_safety
     use_cache validate_input transform_output) data with
  | inl e => inl e
  | inr ts => inr (if flag1 then PyList ts else PyDict (enumerate ts))
  end.
Proof.
  unfold process_data, process_data_body. destruct flag1.
  - apply (process_loop_list data []).
  - apply (process_loop_dict data []).
Qed.

Lemma temps_length (data ts : list V) :
  (temps flag2 flag3 special_mode debug_mode override_safety
     use_cache validate_input transform_output) data = inr ts -> length ts = length data.
Proof.
  revert ts. induction data as [|i rest IH]; intros ts; simpl.
  - intros H. injection H as H. subst ts. reflexivity.
  - destruct (temp_of _ _ _ _ _ _ _ _ i) as [e|temp]; [discriminate|].
    destruct (temps _ _ _ _ _ _ _ _ rest) as [e|ts']; [discriminate|].
    intros H. injection H as H. subst ts. simpl. f_equal. apply IH.
    reflexivity.
Qed.

Lemma temps_error (data : list V) (e : E) :
  (temps flag2 flag3 special_mode debug_mode override_safety
     use_cache validate_input transform_output) data = inl e <->
  exists pre i post,
    data = pre ++ i :: post /\
    Forall (fun x => exists t, (temp_of flag2 flag3 special_mode debug_mode override_safety
     use_cache validate_input transform_output) x = inr t) pre /\
    (temp_of flag2 flag3 special_mode debug_mode override_safety
     use_cache validate_input transform_output) i = inl e.
Proof.
  induction data as [|a rest IH]; simpl.
  - split; [discriminate|]. intros [pre [i [post [H _]]]].
    destruct pre; discriminate.
  - destruct (temp_of _ _ _ _ _ _ _ _ a) as [e'|temp] eqn:Ea.
    + split.
      * intros H. injection H as H. subst e'. exists [], a, rest.
        split; [reflexivity|]. split; [constructor | exact Ea].
      * intros [pre [i [post [Hd [Hpre Hi]]]]]. destruct pre as [|p pre].
        -- simpl in Hd. injection Hd as Hd _. subst i. congruence.
        -- simpl in Hd. injection Hd as Hd _. subst p.
           inversion Hpre as [|? ? [t Ht] _]. subst. congruence.
    + destruct (temps _ _ _ _ _ _ _ _ rest) as [e'|ts] eqn:Er.
      * split.
        -- intros H. injection H as H. subst e'.
           destruct (proj1 IH eq_refl) as [pre [i [post [Hd [Hpre Hi]]]]].
           exists (a :: pre), i, post. split; [rewrite Hd; reflexivity|].
           split; [|exact Hi]. constructor; [exists temp; exact Ea | exact Hpre].
        -- intros [pre [i [post [Hd [Hpre Hi]]]]]. destruct pre as [|p pre].
           ++ simpl in Hd. injection Hd as Hd _. subst i. congruence.
           ++ simpl in Hd. injection Hd as _ Hd. inversion Hpre; subst.
              assert (H : @inl E (list V) e' = inl e).
              { apply IH. exists pre, i, post. repeat split; assumption. }
              congruence.
      * split; [discriminate|].
        intros [pre [i [post [Hd [Hpre Hi]]]]]. destruct pre as [|p pre].
        -- simpl in Hd. injection Hd as Hd _. subst i. congruence.
        -- simpl in Hd. injection Hd as _ Hd. inversion Hpre; subst.
           assert (H : @inr E (list V) ts = inl e).
           { apply IH. exists pre, i, post. repeat split; assumption. }
           discriminate.
Qed.

Lemma temps_identity (data : list V) :
  flag2 && flag3 && special_mode && negb debug_mode = false ->
  override_safety || (use_cache && validate_input) = false ->
  transform_output = false ->
  (temps flag2 flag3 special_mode debug_mode override_safety
     use_cache validate_input transform_output) data = inr data.
Proof.
  intros H1 H2 H3.
  induction data as [|i rest IH]; [reflexivity|].
  cbn [temps]. rewrite IH. unfold temp_of. rewrite H1, H2, H3. reflexivity.
Qed.

End ProcessDataFacts.

Section ProcessDataProperties.

Context {V E : Type} {D : Element V E}.

Variables flag2 flag3 special_mode debug_mode override_safety
          use_cache validate_input transform_output : bool.

(** X7. When [process_data] returns, [flag1] alone decides the kind of the
    result, and nothing of [data] is dropped or added: a list has the length
    of [data], a dict has exactly the keys 0, 1, ..., [len(data) - 1], in
    that order. *)
Theorem process_data_shape (data : list V) (flag1 : bool) (r : container V) :
  process_data data flag1 flag2 flag3 special_mode debug_mode override_safety
               use_cache validate_input transform_output = inr r ->
  match r with
  | PyList l => flag1 = true /\ length l = length data
  | PyDict d => flag1 = false /\ map fst d = seq 0 (length data)
  end.
Proof.
  rewrite process_data_temps.
  destruct (temps _ _ _ _ _ _ _ _ data) as [e|ts] eqn:Et; [discriminate|].
  apply temps_length in Et. intros H. injection H as H. subst r.
  destruct flag1.
  - split; [reflexivity | exact Et].
  - split; [reflexivity|]. rewrite enumerate_keys, Et. reflexivity.
Qed.

(** X8. [flag1] changes nothing but the container: with [flag1] false the
    call raises the same error as with [flag1] true, or returns the dict that
    maps each index of the list returned with [flag1] true to its element. *)
Theorem process_data_dict_of_list (data : list V) :
  process_data data false flag2 flag3 special_mode debug_mode override_safety
               use_cache validate_input transform_output =
  match process_data data true flag2 flag3 special_mode debug_mode
                     override_safety use_cache validate_input transform_output
  with
  | inl e => inl e
  | inr (PyList l) => inr (PyDict (enumerate l))
  | inr (PyDict d) => inr (PyDict d)
  end.
Proof.
  rewrite !process_data_temps.
  destruct (temps _ _ _ _ _ _ _ _ data) as [e|ts]; reflexivity.
Qed.

(** X9. When neither arithmetic branch is selected and [transform_output]
    is false, [process_data] never raises, whatever the elements are, and
    returns them unchanged and in order. *)
Theorem process_data_identity (data : list V) (flag1 : bool) :
  flag2 && flag3 && special_mode && negb debug_mode = false ->
  override_safety || (use_cache && validate_input) = false ->
  transform_output = false ->
  process_data data flag1 flag2 flag3 special_mode debug_mode override_safety
               use_cache validate_input transform_output =
  inr (if flag1 then PyList data else PyDict (enumerate data)).
Proof.
  intros H1 H2 H3. rewrite process_data_temps.
  rewrite (temps_identity _ _ _ _ _ _ _ _ data H1 H2 H3). reflexivity.
Qed.

(** X10. [process_data] handles no error: it raises [e] exactly when some
    element of [data] raises [e] in the loop body and every element before
    it passes; the elements already processed are lost with the result. *)
Theorem process_data_raises (data : list V) (flag1 : bool) (e : E) :
  process_data data flag1 flag2 flag3 special_mode debug_mode override_safety
               use_cache validate_input transform_output = inl e <->
  exists pre i post,
    data = pre ++ i :: post /\
    Forall (fun x => exists t,
              temp_of flag2 flag3 special_mode debug_mode override_safety
                      use_cache validate_input transform_output x = inr t) pre /\
    temp_of flag2 flag3 special_mode debug_mode override_safety
            use_cache validate_input transform_output i = inl e.
Proof.
  rewrite process_data_temps, <- temps_error.
  destruct (temps _ _ _ _ _ _ _ _ data) as [e'|ts].
  - split; intros H; injection H as H; subst; reflexivity.
  - split; discriminate.
Qed.

End ProcessDataProperties.

Lemma process_data_shape_witness :
  false = false /\
  map fst [(0%nat, VInt 6); (1%nat, VStr (world ++ world))] = seq 0 2.
Proof.
  apply (process_data_shape (D := value_element no_unicode)
           true true true false false false false false
           [VInt 3; VStr world] false
           (PyDict [(0%nat, VInt 6); (1%nat, VStr (world ++ world))])).
  reflexivity.
Defined.

Lemma process_data_identity_witness :
  process_data (D := value_element no_unicode) [VStr world; VInt 7]
               false true true true true false true false false =
  inr (PyDict [(0%nat, VStr world); (1%nat, VInt 7)]).
Proof.
  apply (process_data_identity (D := value_element no_unicode)
           true true true true false true false false
           [VStr world; VInt 7] false); reflexivity.
Defined.

Lemma process_data_raises_witness :
  process_data (D := value_element no_unicode)
               [VInt 1; VStr world; VInt 2]
               true false false false false true false false true =
  inl TypeError.
Proof.
  apply (process_data_raises (D := value_element no_unicode)
           false false false false true false false true
           [VInt 1; VStr world; VInt 2] true TypeError).
  exists [VInt 1], (VStr world), [VInt 2].
  split; [reflexivity|]. split; [|reflexivity].
  constructor; [|constructor]. exists (VInt 2). reflexivity.
Defined.

(** *** Integers and strings *)

Section ValueFacts.

Variable unicode_upper : str -> str.

Variables flag2 flag3 special_mode debug_mode override_safety
          use_cache validate_input transform_output : bool.

Lemma value_temps_str (data : list value) (s : str) :
  flag2 && flag3 && special_mode && negb debug_mode = false ->
  override_safety || (use_cache && validate_input) = true ->
  In (VStr s) data ->
  temps (D := value_element unicode_upper)
        flag2 flag3 special_mode debug_mode override_safety
        use_cache validate_input transform_output data = inl TypeError.
Proof.
  intros H1 H2. induction data as [|a rest IH]; intros Hin.
  - destruct Hin.
  - cbn [temps]. unfold temp_of at 1. rewrite H1, H2.
    destruct a as [z|s']; simpl.
    + destruct Hin as [Hin | Hin]; [discriminate|].
      rewrite (IH Hin). reflexivity.
    + reflexivity.
Qed.

Lemma value_temp_of_error (v : value) (e : exn) :
  temp_of (D := value_element unicode_upper)
          flag2 flag3 special_mode debug_mode override_safety
          use_cache validate_input transform_output v = inl e ->
  flag2 && flag3 && special_mode && negb debug_mode = false /\
  override_safety || (use_cache && validate_input) = true /\
  exists s, v = VStr s.
Proof.
  unfold temp_of.
  destruct (flag2 && flag3 && special_mode && negb debug_mode);
    [destruct v; discriminate|].
  destruct (override_safety || (use_cache && validate_input));
    [|discriminate].
  destruct v as [z|s]; [discriminate|]. intros _.
  split; [reflexivity|]. split; [reflexivity|]. exists s. reflexivity.
Qed.

Lemma value_temps_int (zs : list Z) :
  temps (D := value_element unicode_upper)
        flag2 flag3 special_mode debug_mode override_safety
        use_cache validate_input transform_output (map VInt zs) =
  inr (map (fun z =>
              VInt (if flag2 && flag3 && special_mode && negb debug_mode
                    then z * 2
                    else if override_safety || (use_cache && validate_input)
                         then z + 1 else z)%Z) zs).
Proof.
  induction zs as [|z zs IH]; [reflexivity|].
  cbn [map temps]. rewrite IH. unfold temp_of.
  destruct (flag2 && flag3 && special_mode && negb debug_mode);
    destruct (override_safety || (use_cache && validate_input));
    destruct transform_output; reflexivity.
Qed.

(** X11. On integers and strings, [process_data] raises exactly when the
    doubling branch is off, the [i + 1] branch is on and [data] holds a
    string; the error is then [TypeError]. *)
Theorem process_data_type_error (data : list value) (flag1 : bool) :
  process_data (D := value_element unicode_upper) data flag1 flag2 flag3
               special_mode debug_mode override_safety use_cache
               validate_input transform_output = inl TypeError <->
  flag2 && flag3 && special_mode && negb debug_mode = false /\
  override_safety || (use_cache && validate_input) = true /\
  exists s, In (VStr s) data.
Proof.
  rewrite process_data_temps. split.
  - intros H.
    destruct (temps _ _ _ _ _ _ _ _ data) as [e|ts] eqn:Et; [|discriminate].
    apply temps_error in Et. destruct Et as [pre [i [post [Hd [_ Hi]]]]].
    destruct (value_temp_of_error i e Hi) as [H1 [H2 [s Hs]]].
    split; [exact H1|]. split; [exact H2|]. exists s. subst.
    apply in_or_app. right. left. reflexivity.
  - intros [H1 [H2 [s Hin]]]. rewrite (value_temps_str data s H1 H2 Hin).
    reflexivity.
Qed.

(** X12. On integers [process_data] never raises: every element is doubled,
    or incremented, or kept, as the flags select, and [transform_output]
    makes no difference. *)
Theorem process_data_ints (zs : list Z) (flag1 : bool) :
  process_data (D := value_element unicode_upper) (map VInt zs) flag1 flag2
               flag3 special_mode debug_mode override_safety use_cache
               validate_input transform_output =
  let out :=
    map (fun z =>
           VInt (if flag2 && flag3 && special_mode && negb debug_mode
                 then z * 2
                 else if override_safety || (use_cache && validate_input)
                      then z + 1 else z)%Z) zs in
  inr (if flag1 then PyList out else PyDict (enumerate out)).
Proof.
  rewrite process_data_temps, value_temps_int. reflexivity.
Qed.

End ValueFacts.

Lemma process_data_type_error_witness :
  process_data (D := value_element no_unicode) [VInt 5; VStr missing] false
               true true true true false true true false = inl TypeError.
Proof.
  apply (process_data_type_error no_unicode true true true true false true
           true false [VInt 5; VStr missing] false).
  split; [reflexivity|]. split; [reflexivity|].
  exists missing. right. left. reflexivity.
Defined.

(** ** [TestGoodPractices] *)

(** X13. Each of the four test methods, run on the object made by [setUp],
    passes: all its assertions hold. *)
Theorem tests_pass (unicode_lower : str -> str) :
  result test_add_item_success setUp = true /\
  result test_add_empty_item_fails setUp = true /\
  result (test_find_item_exists unicode_lower) setUp = true /\
  result (test_find_item_not_exists unicode_lower) setUp = true.
Proof.
  repeat split; reflexivity.
Qed.
